(** * wasmws: the ArrayBuffer reader ([arrayreader_js.go])

    A shallow embedding of [arrayReader], the pooled [io.ReadCloser] that
    adapts a JavaScript ArrayBuffer (or a promise for one) to Go's blocking
    sequential-read contract, and the properties of it that the
    specification states.

    Conventions of the embedding.
    - A Go [[]byte] is a window on a backing array.  A slice value is kept
      as the bytes inside the window ([len] of them) followed by the bytes
      of the array that lie behind the window up to [cap]; bytes in front of
      the window are unreachable from the slice and are not kept.  The [nil]
      slice is a constructor of its own.
    - Slice expressions that Go checks at run time return an [outcome]; a
      failed check is [Panics].
    - A JavaScript promise is represented by the way it settles.  A promise
      that never settles makes [Read] block for ever: [Blocks].
    - [Read] also returns the list of host calls it made, so that the number
      of registrations on the promise can be counted.
    - Lengths are [nat]: Go's [int] cannot overflow on the length of a slice
      that exists.  The constant [socketStreamThresholdBytes] is declared
      outside this file of the repository and is a parameter, an [int]
      constant, hence a [Z]. *)

From Stdlib Require Import String List Arith ZArith Lia Bool.
Import ListNotations.

Module Wasmws.

(** ** Outcomes of Go code that may panic or block *)

Inductive outcome (A : Type) : Type :=
| Returns (a : A)
| Panics
| Blocks.

Arguments Returns {A} a.
Arguments Panics {A}.
Arguments Blocks {A}.

Definition bind {A B : Type} (o : outcome A) (k : A -> outcome B) : outcome B :=
  match o with
  | Returns a => k a
  | Panics => Panics
  | Blocks => Blocks
  end.

Notation "x <- c ;; k" := (bind c (fun x => k))
  (at level 61, c at next level, right associativity).

Definition omap {A B : Type} (f : A -> B) (o : outcome A) : outcome B :=
  x <- o ;; Returns (f x).

(** ** Bytes and slices *)

Definition byte := Byte.byte.

Inductive slice : Type :=
| SNil
| SMk (elems spare : list byte).

(** [s[0], ..., s[len(s)-1]] *)
Definition elems (s : slice) : list byte :=
  match s with
  | SNil => []
  | SMk e _ => e
  end.

(** The backing array from the start of the window to its capacity. *)
Definition storage (s : slice) : list byte :=
  match s with
  | SNil => []
  | SMk e sp => e ++ sp
  end.

Definition len (s : slice) : nat := length (elems s).
Definition cap (s : slice) : nat := length (storage s).

(** [s[:hi]]: Go panics unless [hi <= cap(s)]. *)
Definition slice_to (s : slice) (hi : nat) : outcome slice :=
  match s with
  | SNil => if hi =? 0 then Returns SNil else Panics
  | SMk e sp =>
      if hi <=? length (e ++ sp)
      then Returns (SMk (firstn hi (e ++ sp)) (skipn hi (e ++ sp)))
      else Panics
  end.

(** [s[lo:]]: Go panics unless [lo <= len(s)]. *)
Definition slice_from (s : slice) (lo : nat) : outcome slice :=
  match s with
  | SNil => if lo =? 0 then Returns SNil else Panics
  | SMk e sp =>
      if lo <=? length e
      then Returns (SMk (skipn lo e) sp)
      else Panics
  end.

(** [make([]byte, n)] *)
Definition make (n : nat) : slice := SMk (repeat Byte.x00 n) [].

(** Go's [copy(dst, src)] on the elements: the first
    [min(len(dst), len(src))] elements of [dst] are overwritten; the new
    elements of [dst] and the number copied are returned. *)
Definition copy (dst src : list byte) : list byte * nat :=
  let n := Nat.min (length dst) (length src) in
  (firstn n src ++ skipn n dst, n).

Arguments copy : simpl never.

(** [js.CopyBytesToGo(dst, src)], [src] being a Uint8Array: the same copy,
    into the window of [dst]; the array behind the window is untouched. *)
Definition CopyBytesToGo (dst : slice) (src : list byte) : slice * nat :=
  match dst with
  | SNil => (SNil, 0)
  | SMk e sp => let '(e', n) := copy e src in (SMk e' sp, n)
  end.

(** ** JavaScript values and Go errors *)

(** How a promise for an array buffer settles. *)
Inductive settlement : Type :=
| Fulfilled (arrayBuffer : list byte)
| Rejected (message : string)
| Unsettled.

(** The [js.Value]s held in [jsPromise]: the zero value [js.Value{}]
    (JavaScript's undefined) or a promise. *)
Inductive jsValue : Type :=
| JsUndefined
| JsPromise (s : settlement).

Inductive error : Type :=
| EOF                       (* io.EOF *)
| ErrNew (message : string) (* errors.New(message) *).

(** Host calls made by the reader. *)
Inductive event : Type :=
| EvThen (s : settlement)   (* jsPromise.Call("then", success, failure) *).

(** ** The reader *)

Record arrayReader : Type := mkReader {
  jsPromise : jsValue;
  remaining : slice;
  read : bool;
  err : option error
}.

Definition set_remaining (ar : arrayReader) (r : slice) : arrayReader :=
  mkReader (jsPromise ar) r (read ar) (err ar).

Definition set_read (ar : arrayReader) (b : bool) : arrayReader :=
  mkReader (jsPromise ar) (remaining ar) b (err ar).

Definition set_jsPromise (ar : arrayReader) (v : jsValue) : arrayReader :=
  mkReader v (remaining ar) (read ar) (err ar).

(** [new(arrayReader)] *)
Definition New : arrayReader := mkReader JsUndefined SNil false None.

(** [arrayReaderPool]: the instances put back and not yet taken again. *)
Definition pool := list arrayReader.

Definition Get (p : pool) : arrayReader * pool :=
  match p with
  | [] => (New, [])
  | ar :: p' => (ar, p')
  end.

Definition Put (p : pool) (ar : arrayReader) : pool := ar :: p.

(** [fromArray]: the value returned is always stored in [ar.remaining] by
    the caller, so the slice is returned with the bytes copied into it. *)
Definition fromArray (ar : arrayReader) (arrayBuffer : list byte) : outcome slice :=
  let jsBuf := arrayBuffer in
  let count := length jsBuf in
  goBuf <- (if count <=? cap (remaining ar)
            then slice_to (remaining ar) count
            else Returns (make count)) ;;
  Returns (fst (CopyBytesToGo goBuf jsBuf)).

Definition newReaderArrayPromise (p : pool) (arrayPromise : jsValue)
  : arrayReader * pool :=
  let '(ar, p) := Get p in
  (set_jsPromise ar arrayPromise, p).

Definition newReaderArrayBuffer (p : pool) (arrayBuffer : list byte)
  : outcome (arrayReader * nat * pool) :=
  let '(ar, p) := Get p in
  goBuf <- fromArray ar arrayBuffer ;;
  let ar := set_read (set_remaining ar goBuf) true in
  Returns (ar, len (remaining ar), p).

(** What one call of [Read] hands back: [n], [err], the destination after
    the call and the reader after the call. *)
Definition readResult : Type := (nat * option error * list byte * arrayReader)%type.

(** The tail of [Read], after the promise has been waited on: the test for
    the end of the data, the copy into [buf] and the advance of
    [ar.remaining]. *)
Definition deliver (ar : arrayReader) (buf : list byte) : outcome readResult :=
  if len (remaining ar) <? 1 then Returns (0, Some EOF, buf, ar)
  else
    let '(buf', n) := copy buf (elems (remaining ar)) in
    rest <- slice_from (remaining ar) n ;;
    Returns (n, None, buf', set_remaining ar rest).

Definition Read (ar : arrayReader) (buf : list byte)
  : list event * outcome readResult :=
  match err ar with
  | Some e => ([], Returns (0, Some e, buf, ar))
  | None =>
      if negb (read ar) then
        let ar := set_read ar true in
        match jsPromise ar with
        | JsUndefined => ([], Panics)
        | JsPromise s =>
            ([EvThen s],
             match s with
             | Fulfilled arrayBuffer =>
                 goBuf <- fromArray ar arrayBuffer ;;
                 deliver (set_remaining ar goBuf) buf
             | Rejected message =>
                 Returns (0, Some (ErrNew message), buf, ar)
             | Unsettled => Blocks
             end)
        end
      else ([], deliver ar buf)
  end.

Section Threshold.

(** [socketStreamThresholdBytes] *)
Variable socketStreamThresholdBytes : Z.

Definition Reset (ar : arrayReader) : outcome arrayReader :=
  let bufMax := socketStreamThresholdBytes in
  let ar := mkReader JsUndefined (remaining ar) false None in
  if (Z.of_nat (cap (remaining ar)) <? bufMax)%Z
  then r <- slice_to (remaining ar) 0 ;; Returns (set_remaining ar r)
  else Returns (set_remaining ar SNil).

(** [Close] returns [nil]; what matters is the pool afterwards. *)
Definition Close (ar : arrayReader) (p : pool) : outcome (option error * pool) :=
  ar' <- Reset ar ;;
  Returns (None, Put p ar').

End Threshold.

(** ** A caller reading sequentially *)

(** What the caller sees of one [Read]. *)
Definition observation : Type := (nat * option error * list byte)%type.

(** One [Read] per destination, in order, on the same instance. *)
Fixpoint Reads (ar : arrayReader) (bufs : list (list byte))
  : list event * outcome (list observation * arrayReader) :=
  match bufs with
  | [] => ([], Returns ([], ar))
  | buf :: bufs' =>
      match Read ar buf with
      | (tr, Returns (n, e, buf', ar')) =>
          let '(tr', o) := Reads ar' bufs' in
          (tr ++ tr', omap (fun '(obs, ar'') => ((n, e, buf') :: obs, ar'')) o)
      | (tr, Panics) => (tr, Panics)
      | (tr, Blocks) => (tr, Blocks)
      end
  end.

(** The bytes handed to the caller by the [ok] results. *)
Definition delivered (obs : list observation) : list byte :=
  flat_map (fun '(n, e, buf') =>
              match e with None => firstn n buf' | Some _ => [] end) obs.

(** The byte count over the [ok] results. *)
Definition delivered_count (obs : list observation) : nat :=
  list_sum (map (fun '(n, e, _) =>
                   match e with None => n | Some _ => 0 end) obs).

Definition total_capacity (bufs : list (list byte)) : nat :=
  list_sum (map (@length byte) bufs).

(** What a caller can observe of a run: the host calls and the results,
    not the instance itself. *)
Definition observe (r : list event * outcome (list observation * arrayReader))
  : list event * outcome (list observation) :=
  (fst r, omap fst (snd r)).

(** ** The read contract in the specification's words

    With [rem] the bytes not yet delivered: an empty [rem] gives
    [(0, end-of-data)]; otherwise the minimum of [len(destination)] and
    [len(rem)] bytes are copied to the front of the destination, [rem]
    advances past them and the result is [(bytesWritten, ok)]. *)
Fixpoint spec_reads (rem : list byte) (bufs : list (list byte))
  : list observation :=
  match bufs with
  | [] => []
  | buf :: bufs' =>
      match rem with
      | [] => (0, Some EOF, buf) :: spec_reads [] bufs'
      | _ :: _ =>
          let n := Nat.min (length buf) (length rem) in
          (n, None, firstn n rem ++ skipn n buf)
            :: spec_reads (skipn n rem) bufs'
      end
  end.

(** ** States of an instance *)

(** An instance as [Reset] leaves it and as [new(arrayReader)] makes it. *)
Definition idle (ar : arrayReader) : Prop :=
  jsPromise ar = JsUndefined /\ read ar = false /\ err ar = None
  /\ len (remaining ar) = 0.

(** Only [Close] puts instances into the pool, after [Reset]. *)
Definition pool_ok (p : pool) : Prop := Forall idle p.

(** The states of an instance between its configuration and its release. *)
Inductive InUse : arrayReader -> Prop :=
| InUse_promise : forall p v ar p',
    pool_ok p -> newReaderArrayPromise p v = (ar, p') -> InUse ar
| InUse_buffer : forall p src ar n p',
    pool_ok p -> newReaderArrayBuffer p src = Returns (ar, n, p') -> InUse ar
| InUse_read : forall ar buf tr n e buf' ar',
    InUse ar -> Read ar buf = (tr, Returns (n, e, buf', ar')) -> InUse ar'.

(** The promise has been waited on and no failure is stored. *)
Definition streaming (ar : arrayReader) : Prop :=
  read ar = true /\ err ar = None.

(** [src] is what the instance will still deliver: it is streaming with
    [src] remaining, or it waits for a promise that is fulfilled with
    [src]. *)
Definition holds (src : list byte) (ar : arrayReader) : Prop :=
  err ar = None /\
  (if read ar then elems (remaining ar) = src
   else jsPromise ar = JsPromise (Fulfilled src)).

(** The resolution block is skipped: the promise has been waited on, or a
    failure is stored. *)
Definition settled (ar : arrayReader) : Prop :=
  read ar = true \/ err ar <> None.

(** A read that answers end-of-data leaves the instance exhausted: a stored
    [io.EOF], or a waited-on instance with nothing remaining. *)
Definition exhausted (ar : arrayReader) : Prop :=
  err ar = Some EOF \/ (streaming ar /\ elems (remaining ar) = []).

(** Sequential reads into [bufs] on [ar] deliver all of [src]: they all
    return, each result is the one the contract [spec_reads] gives (the
    minimum of the two lengths is copied and what remains advances past
    it), the bytes of the [ok] results are [src] in order, [length src]
    of them, and one more read returns [(0, io.EOF)]. *)
Definition delivers (src : list byte) (bufs : list (list byte))
           (ar : arrayReader) : Prop :=
  exists tr obs ar',
    Reads ar bufs = (tr, Returns (obs, ar'))
    /\ obs = spec_reads src bufs
    /\ delivered obs = src
    /\ delivered_count obs = length src
    /\ forall buf, exists tr' ar'',
        Read ar' buf = (tr', Returns (0, Some EOF, buf, ar'')).

(** Two instances that a caller cannot tell apart: the same handle, flag
    and error, and the same bytes in the window of [remaining].  The
    backing storage behind the window may differ. *)
Definition alike (a b : arrayReader) : Prop :=
  jsPromise a = jsPromise b /\ read a = read b /\ err a = err b
  /\ elems (remaining a) = elems (remaining b).

(** * Properties *)

(** ** Slices *)

Lemma firstn_skipn_length (A : Type) (l : list A) (n : nat) :
  n <= length l -> length (firstn n l) = n.
Proof. intro H. rewrite length_firstn. lia. Qed.

Lemma slice_to_zero (s : slice) :
  exists r, slice_to s 0 = Returns r /\ len r = 0 /\ storage r = storage s.
Proof.
  destruct s as [|e sp]; simpl.
  - exists SNil. repeat split.
  - exists (SMk [] (e ++ sp)). repeat split.
Qed.

Lemma slice_to_elems (s r : slice) (hi : nat) :
  slice_to s hi = Returns r ->
  elems r = firstn hi (storage s) /\ storage r = storage s /\ hi <= cap s.
Proof.
  destruct s as [|e sp]; simpl.
  - destruct (Nat.eqb_spec hi 0); [|discriminate].
    intros [= <-]. subst hi. repeat split. unfold cap; simpl; lia.
  - destruct (Nat.leb_spec hi (length (e ++ sp))); [|discriminate].
    intros [= <-]. simpl. rewrite firstn_skipn. repeat split. exact H.
Qed.

Lemma slice_to_returns (s : slice) (hi : nat) :
  hi <= cap s -> exists r, slice_to s hi = Returns r.
Proof.
  unfold cap. destruct s as [|e sp]; simpl; intro H.
  - assert (hi = 0) by lia. subst. eexists; reflexivity.
  - destruct (Nat.leb_spec hi (length (e ++ sp))); [eexists; reflexivity | lia].
Qed.

Lemma slice_from_returns (s : slice) (lo : nat) :
  lo <= len s ->
  exists r, slice_from s lo = Returns r
            /\ elems r = skipn lo (elems s)
            /\ storage r = skipn lo (storage s).
Proof.
  unfold len. destruct s as [|e sp]; simpl; intro H.
  - assert (lo = 0) by lia. subst. exists SNil. repeat split.
  - destruct (Nat.leb_spec lo (length e)); [|lia].
    eexists; repeat split. simpl.
    rewrite skipn_app. replace (lo - length e) with 0 by lia. reflexivity.
Qed.

Lemma copy_exact (dst src : list byte) :
  length dst = length src -> copy dst src = (src, length src).
Proof.
  intro H. unfold copy. rewrite H, Nat.min_id, firstn_all.
  rewrite <- H, skipn_all, app_nil_r. reflexivity.
Qed.

(** ** [fromArray] *)

Lemma CopyBytesToGo_exact (dst : slice) (src : list byte) :
  len dst = length src -> elems (fst (CopyBytesToGo dst src)) = src.
Proof.
  unfold len, CopyBytesToGo. destruct dst as [|e sp]; intro H.
  - symmetry. apply length_zero_iff_nil. simpl in H. lia.
  - simpl in H. rewrite (copy_exact e src H). reflexivity.
Qed.

(** [fromArray] never panics and returns a slice holding exactly the bytes
    of the array buffer, whatever the instance held before. *)
Lemma fromArray_returns (ar : arrayReader) (src : list byte) :
  exists s, fromArray ar src = Returns s /\ elems s = src.
Proof.
  unfold fromArray.
  destruct (Nat.leb_spec (length src) (cap (remaining ar))) as [Hle|Hgt].
  - destruct (slice_to_returns _ _ Hle) as [r Hr]. rewrite Hr.
    destruct (slice_to_elems _ _ _ Hr) as (He & _ & _).
    exists (fst (CopyBytesToGo r src)). split; [reflexivity|].
    apply CopyBytesToGo_exact. unfold len. rewrite He.
    apply firstn_skipn_length. exact Hle.
  - exists (fst (CopyBytesToGo (make (length src)) src)).
    split; [reflexivity|].
    apply CopyBytesToGo_exact. unfold len, make. simpl. apply repeat_length.
Qed.

(** ** One [Read] *)

Lemma deliver_empty (ar : arrayReader) (buf : list byte) :
  elems (remaining ar) = [] ->
  deliver ar buf = Returns (0, Some EOF, buf, ar).
Proof. intro H. unfold deliver, len. rewrite H. reflexivity. Qed.

Lemma deliver_nonempty (ar : arrayReader) (buf : list byte) :
  elems (remaining ar) <> [] ->
  let n := Nat.min (length buf) (len (remaining ar)) in
  exists rest,
    deliver ar buf =
      Returns (n, None, firstn n (elems (remaining ar)) ++ skipn n buf,
               set_remaining ar rest)
    /\ elems rest = skipn n (elems (remaining ar))
    /\ storage rest = skipn n (storage (remaining ar)).
Proof.
  intros H n. unfold deliver.
  assert (L : len (remaining ar) <> 0).
  { unfold len. intro L. apply H. apply length_zero_iff_nil. exact L. }
  destruct (Nat.ltb_spec (len (remaining ar)) 1); [lia|].
  unfold copy. fold (len (remaining ar)). fold n.
  destruct (slice_from_returns (remaining ar) n) as (rest & Hr & He & Hs);
    [unfold n; lia|].
  exists rest. rewrite Hr. repeat split; assumption.
Qed.

(** What [deliver] can return. *)
Lemma deliver_inv (ar : arrayReader) (buf : list byte) (r : readResult) :
  deliver ar buf = Returns r ->
  (len (remaining ar) = 0 /\ r = (0, Some EOF, buf, ar))
  \/ (0 < len (remaining ar) /\
      exists rest,
        let n := Nat.min (length buf) (len (remaining ar)) in
        r = (n, None, firstn n (elems (remaining ar)) ++ skipn n buf,
             set_remaining ar rest)
        /\ elems rest = skipn n (elems (remaining ar))
        /\ storage rest = skipn n (storage (remaining ar))).
Proof.
  intro H.
  destruct (elems (remaining ar)) as [|b l] eqn:E.
  - left. rewrite deliver_empty in H by exact E.
    injection H as <-. unfold len. rewrite E. split; reflexivity.
  - right.
    assert (N : elems (remaining ar) <> []) by (rewrite E; discriminate).
    destruct (deliver_nonempty ar buf N) as (rest & Hd & He & Hs).
    rewrite Hd in H. injection H as <-.
    split; [unfold len; rewrite E; simpl; lia|].
    exists rest. rewrite <- E. repeat split; assumption.
Qed.

(** A streaming instance goes straight to the copy, without any host call. *)
Lemma Read_streaming (ar : arrayReader) (buf : list byte) :
  streaming ar -> Read ar buf = ([], deliver ar buf).
Proof. intros [Hr He]. unfold Read. rewrite He, Hr. reflexivity. Qed.

(** A stored failure is returned as it is. *)
Lemma Read_failed (ar : arrayReader) (buf : list byte) (e : error) :
  err ar = Some e -> Read ar buf = ([], Returns (0, Some e, buf, ar)).
Proof. intro H. unfold Read. rewrite H. reflexivity. Qed.

(** The first [Read] on a promise that is fulfilled with [src]: one
    registration, then the copy from a streaming instance holding [src]. *)
Lemma Read_fulfilled (ar : arrayReader) (buf src : list byte) :
  err ar = None -> read ar = false ->
  jsPromise ar = JsPromise (Fulfilled src) ->
  exists ar1,
    Read ar buf = ([EvThen (Fulfilled src)], deliver ar1 buf)
    /\ streaming ar1 /\ elems (remaining ar1) = src.
Proof.
  intros He Hr Hp. unfold Read. rewrite He, Hr. simpl. rewrite Hp.
  destruct (fromArray_returns (set_read ar true) src) as (s & Hs & El).
  rewrite Hs. simpl.
  exists (set_remaining (set_read ar true) s).
  repeat split; simpl; assumption.
Qed.

Lemma Read_holds (src : list byte) (ar : arrayReader) (buf : list byte) :
  holds src ar ->
  exists tr ar1,
    Read ar buf = (tr, deliver ar1 buf)
    /\ streaming ar1 /\ elems (remaining ar1) = src.
Proof.
  intros [He H]. destruct (read ar) eqn:Hr.
  - exists [], ar. split; [apply Read_streaming; split; assumption|].
    repeat split; assumption.
  - destruct (Read_fulfilled ar buf src He Hr H) as (ar1 & H1 & H2 & H3).
    exists [EvThen (Fulfilled src)], ar1. split; [exact H1|].
    split; assumption.
Qed.

Lemma streaming_holds (ar : arrayReader) :
  streaming ar -> holds (elems (remaining ar)) ar.
Proof. intros [Hr He]. split; [exact He|]. rewrite Hr. reflexivity. Qed.

(** ** Sequences of reads *)

Lemma skipn_min_add (A : Type) (l : list A) (a b : nat) :
  skipn b (skipn (Nat.min a (length l)) l) = skipn (a + b) l.
Proof.
  rewrite skipn_skipn.
  destruct (Nat.le_ge_cases a (length l)) as [H|H].
  - rewrite Nat.min_l by exact H. f_equal. lia.
  - rewrite Nat.min_r by exact H.
    rewrite !skipn_all2 by lia. reflexivity.
Qed.

Lemma firstn_min_add (A : Type) (l : list A) (a b : nat) :
  firstn (Nat.min a (length l)) l
    ++ firstn b (skipn (Nat.min a (length l)) l)
  = firstn (a + b) l.
Proof.
  destruct (Nat.le_ge_cases a (length l)) as [H|H].
  - rewrite Nat.min_l by exact H.
    rewrite <- (firstn_skipn a l) at 3.
    rewrite firstn_app, firstn_firstn.
    rewrite firstn_skipn_length by exact H.
    replace (Nat.min (a + b) a) with a by lia.
    replace (a + b - a) with b by lia. reflexivity.
  - rewrite Nat.min_r by exact H.
    rewrite firstn_all, skipn_all, firstn_nil, app_nil_r.
    rewrite firstn_all2 by lia. reflexivity.
Qed.

Lemma delivered_cons (n : nat) (e : option error) (buf' : list byte)
      (obs : list observation) :
  delivered ((n, e, buf') :: obs)
  = match e with None => firstn n buf' | Some _ => [] end ++ delivered obs.
Proof. reflexivity. Qed.

Lemma delivered_count_cons (n : nat) (e : option error) (buf' : list byte)
      (obs : list observation) :
  delivered_count ((n, e, buf') :: obs)
  = match e with None => n | Some _ => 0 end + delivered_count obs.
Proof. reflexivity. Qed.

Lemma total_capacity_cons (buf : list byte) (bufs : list (list byte)) :
  total_capacity (buf :: bufs) = length buf + total_capacity bufs.
Proof. reflexivity. Qed.

Lemma spec_reads_nil (buf : list byte) (bufs : list (list byte)) :
  spec_reads [] (buf :: bufs) = (0, Some EOF, buf) :: spec_reads [] bufs.
Proof. reflexivity. Qed.

Lemma spec_reads_cons (rem buf : list byte) (bufs : list (list byte)) :
  rem <> [] ->
  spec_reads rem (buf :: bufs)
  = (Nat.min (length buf) (length rem), None,
     firstn (Nat.min (length buf) (length rem)) rem
       ++ skipn (Nat.min (length buf) (length rem)) buf)
      :: spec_reads (skipn (Nat.min (length buf) (length rem)) rem) bufs.
Proof. destruct rem; [congruence | reflexivity]. Qed.

(** The [ok] results of the contract deliver the front of [rem], as far as
    the destinations reach. *)
Lemma delivered_spec_reads (bufs : list (list byte)) :
  forall rem : list byte,
    delivered (spec_reads rem bufs) = firstn (total_capacity bufs) rem.
Proof.
  induction bufs as [|buf bufs IH]; intro rem.
  - reflexivity.
  - rewrite total_capacity_cons. destruct rem as [|b rem'].
    + rewrite spec_reads_nil, delivered_cons, IH, !firstn_nil. reflexivity.
    + set (rem := b :: rem').
      rewrite spec_reads_cons by discriminate.
      rewrite delivered_cons, IH.
      rewrite firstn_app, firstn_firstn, Nat.min_id.
      rewrite firstn_skipn_length by lia.
      rewrite Nat.sub_diag, firstn_0, app_nil_r.
      apply firstn_min_add.
Qed.

Lemma delivered_count_spec_reads (bufs : list (list byte)) :
  forall rem : list byte,
    delivered_count (spec_reads rem bufs)
    = Nat.min (total_capacity bufs) (length rem).
Proof.
  induction bufs as [|buf bufs IH]; intro rem.
  - reflexivity.
  - rewrite total_capacity_cons. destruct rem as [|b rem'].
    + rewrite spec_reads_nil, delivered_count_cons, IH. simpl. lia.
    + set (rem := b :: rem').
      rewrite spec_reads_cons by discriminate.
      rewrite delivered_count_cons, IH, length_skipn. lia.
Qed.

(** Sequential reads on an instance that holds [src] return, follow the
    contract, and leave an instance that holds what is left of [src]. *)
Lemma Reads_holds (bufs : list (list byte)) :
  forall (src : list byte) (ar : arrayReader),
    holds src ar ->
    exists tr ar',
      Reads ar bufs = (tr, Returns (spec_reads src bufs, ar'))
      /\ holds (skipn (total_capacity bufs) src) ar'.
Proof.
  induction bufs as [|buf bufs IH]; intros src ar H.
  - exists [], ar. split; [reflexivity | exact H].
  - destruct (Read_holds src ar buf H) as (tr & ar1 & HR & Hst & Hel).
    rewrite total_capacity_cons.
    destruct src as [|b src'].
    + rewrite deliver_empty in HR by exact Hel.
      destruct (IH [] ar1) as (tr' & ar' & HRs & Hh).
      { rewrite <- Hel. apply streaming_holds. exact Hst. }
      exists (tr ++ tr'), ar'. simpl. rewrite HR, HRs. simpl.
      split; [reflexivity|]. rewrite skipn_nil in *. exact Hh.
    + set (src := b :: src') in *.
      assert (N : elems (remaining ar1) <> [])
        by (rewrite Hel; discriminate).
      destruct (deliver_nonempty ar1 buf N) as (rest & Hd & He & _).
      unfold len in Hd, He. rewrite Hel in Hd, He. rewrite Hd in HR.
      destruct (IH (skipn (Nat.min (length buf) (length src)) src)
                  (set_remaining ar1 rest)) as (tr' & ar' & HRs & Hh).
      { rewrite <- He. apply (streaming_holds (set_remaining ar1 rest)).
        exact Hst. }
      exists (tr ++ tr'), ar'. simpl Reads. rewrite HR, HRs.
      rewrite spec_reads_cons by discriminate.
      split; [reflexivity|].
      rewrite skipn_min_add in Hh. exact Hh.
Qed.

(** An instance that holds nothing answers end-of-data. *)
Lemma Read_holds_nil (ar : arrayReader) (buf : list byte) :
  holds [] ar ->
  exists tr ar', Read ar buf = (tr, Returns (0, Some EOF, buf, ar')).
Proof.
  intro H. destruct (Read_holds [] ar buf H) as (tr & ar1 & HR & _ & Hel).
  rewrite deliver_empty in HR by exact Hel. exists tr, ar1. exact HR.
Qed.

(** ** The pool *)

Lemma idle_New : idle New.
Proof. repeat split. Qed.

(** [Reset] never panics, and leaves an idle instance. *)
Lemma Reset_returns (bufMax : Z) (ar : arrayReader) :
  exists ar',
    Reset bufMax ar = Returns ar' /\ idle ar'
    /\ ((Z.of_nat (cap (remaining ar)) < bufMax)%Z ->
        storage (remaining ar') = storage (remaining ar))
    /\ ((bufMax <= Z.of_nat (cap (remaining ar)))%Z ->
        remaining ar' = SNil).
Proof.
  unfold Reset. cbn [remaining].
  destruct (Z.ltb_spec (Z.of_nat (cap (remaining ar))) bufMax) as [H|H].
  - destruct (slice_to_zero (remaining ar)) as (r & Hr & Hl & Hs).
    rewrite Hr. eexists. split; [reflexivity|].
    split; [|split].
    + unfold idle. simpl. auto.
    + intros _. exact Hs.
    + lia.
  - eexists. split; [reflexivity|].
    split; [|split].
    + unfold idle. simpl. auto.
    + lia.
    + intros _. reflexivity.
Qed.

Lemma pool_ok_nil : pool_ok [].
Proof. constructor. Qed.

Lemma Get_idle (p : pool) :
  pool_ok p -> idle (fst (Get p)) /\ pool_ok (snd (Get p)).
Proof.
  intro H. destruct p as [|ar p]; simpl.
  - split; [exact idle_New | exact H].
  - inversion H; subst. split; assumption.
Qed.

(** [Close] never panics and keeps the pool made of idle instances. *)
Lemma Close_pool_ok (bufMax : Z) (ar : arrayReader) (p : pool) :
  pool_ok p ->
  exists p', Close bufMax ar p = Returns (None, p') /\ pool_ok p'.
Proof.
  intro H. unfold Close.
  destruct (Reset_returns bufMax ar) as (ar' & HR & Hi & _).
  rewrite HR. exists (ar' :: p). split; [reflexivity|].
  constructor; assumption.
Qed.

(** Configuring an idle instance. *)
Lemma configure_promise_idle (ar : arrayReader) (src : list byte) :
  idle ar -> holds src (set_jsPromise ar (JsPromise (Fulfilled src))).
Proof.
  intros (_ & Hr & He & _). split; simpl; [exact He|].
  rewrite Hr. reflexivity.
Qed.

Lemma newReaderArrayBuffer_returns (p : pool) (src : list byte) :
  exists ar,
    newReaderArrayBuffer p src = Returns (ar, length src, snd (Get p))
    /\ read ar = true /\ err ar = err (fst (Get p))
    /\ jsPromise ar = jsPromise (fst (Get p))
    /\ elems (remaining ar) = src.
Proof.
  unfold newReaderArrayBuffer. destruct (Get p) as [ar0 p'].
  destruct (fromArray_returns ar0 src) as (s & Hs & El).
  rewrite Hs. simpl. unfold len. rewrite El.
  eexists. split; [reflexivity|]. repeat split. exact El.
Qed.

(** Instances in use never have a failure stored, and hold no bytes until
    their promise has been waited on. *)
Lemma InUse_inv (ar : arrayReader) :
  InUse ar -> err ar = None /\ (read ar = false -> len (remaining ar) = 0).
Proof.
  induction 1 as [p v ar p' Hp Hc | p src ar n p' Hp Hc
                  | ar buf tr n e buf' ar' Hu IH HR].
  - unfold newReaderArrayPromise in Hc.
    destruct (Get_idle p Hp) as [(_ & Hr & He & Hl) _].
    destruct (Get p) as [ar0 p0]. injection Hc as <- <-. simpl in *.
    split; [exact He | intros _; exact Hl].
  - destruct (newReaderArrayBuffer_returns p src) as (a & Ha & Hr & He & _).
    rewrite Ha in Hc. injection Hc as <- <- <-.
    destruct (Get_idle p Hp) as [(_ & _ & He0 & _) _].
    split; [congruence | rewrite Hr; discriminate].
  - destruct IH as [He Hl]. unfold Read in HR. rewrite He in HR.
    destruct (read ar) eqn:Hr; simpl in HR.
    + injection HR as <- HR.
      destruct (deliver_inv ar buf _ HR) as [[_ Hq] | [_ (rest & Hq & _)]];
        injection Hq as -> -> -> ->; simpl; rewrite Hr;
        (split; [exact He | discriminate]).
    + destruct (jsPromise ar) as [|[src|msg|]]; try discriminate.
      * injection HR as <- HR.
        destruct (fromArray_returns (set_read ar true) src) as (s & Hs & _).
        rewrite Hs in HR. simpl in HR.
        destruct (deliver_inv _ buf _ HR) as [[_ Hq] | [_ (rest & Hq & _)]];
          injection Hq as -> -> -> ->; simpl;
          (split; [exact He | discriminate]).
      * injection HR as <- <- <- <- <-; simpl.
        split; [exact He | discriminate].
Qed.

(** ** Registrations on the promise *)

Lemma deliver_read (ar : arrayReader) (buf : list byte)
      (n : nat) (e : option error) (buf' : list byte) (ar' : arrayReader) :
  deliver ar buf = Returns (n, e, buf', ar') ->
  read ar' = read ar /\ err ar' = err ar /\ jsPromise ar' = jsPromise ar.
Proof.
  intro H.
  destruct (deliver_inv ar buf _ H) as [[_ Hq] | [_ (rest & Hq & _)]];
    injection Hq as -> -> -> ->; repeat split.
Qed.

(** What one [Read] does to the host: at most one registration, none on a
    settled instance, and the instance is settled when [Read] returns. *)
Lemma Read_registrations (ar : arrayReader) (buf : list byte) :
  length (fst (Read ar buf)) <= 1
  /\ (settled ar -> fst (Read ar buf) = [])
  /\ (forall n e buf' ar',
        snd (Read ar buf) = Returns (n, e, buf', ar') -> settled ar').
Proof.
  unfold Read, settled.
  destruct (err ar) as [e0|] eqn:He.
  - simpl. repeat split; [lia|].
    intros n e buf' ar' [= <- <- <- <-]. right. congruence.
  - destruct (read ar) eqn:Hr; simpl.
    + repeat split; [lia|].
      intros n e buf' ar' H. left.
      destruct (deliver_read _ _ _ _ _ _ H) as (-> & _). exact Hr.
    + destruct (jsPromise ar) as [|[src|msg|]]; simpl;
        (split; [lia|]);
        (split; [intros [?|?]; congruence|]);
        intros n e buf' ar' H; try discriminate.
      * left.
        destruct (fromArray_returns (set_read ar true) src) as (s & Hs & _).
        rewrite Hs in H. simpl in H.
        destruct (deliver_read _ _ _ _ _ _ H) as (-> & _). reflexivity.
      * injection H as <- <- <- <-. left. reflexivity.
Qed.

Lemma Reads_settled (bufs : list (list byte)) :
  forall ar : arrayReader, settled ar -> fst (Reads ar bufs) = [].
Proof.
  induction bufs as [|buf bufs IH]; intros ar H; [reflexivity|].
  destruct (Read_registrations ar buf) as (_ & Hq & Hs).
  specialize (Hq H). simpl.
  destruct (Read ar buf) as [tr [[[[n e] buf'] ar']| |]]; simpl in *;
    try exact Hq.
  specialize (IH ar' (Hs _ _ _ _ eq_refl)).
  destruct (Reads ar' bufs) as [tr' o]. simpl in *. subst. reflexivity.
Qed.

Lemma Reads_registrations (bufs : list (list byte)) (ar : arrayReader) :
  length (fst (Reads ar bufs)) <= 1.
Proof.
  destruct bufs as [|buf bufs]; [simpl; lia|].
  destruct (Read_registrations ar buf) as (Hl & _ & Hs). simpl.
  destruct (Read ar buf) as [tr [[[[n e] buf'] ar']| |]]; simpl in *;
    try exact Hl.
  pose proof (Reads_settled bufs ar' (Hs _ _ _ _ eq_refl)) as Hq.
  destruct (Reads ar' bufs) as [tr' o]. simpl in *. subst.
  rewrite app_nil_r. exact Hl.
Qed.

(** ** Terminal results *)

Lemma Read_exhausted (ar : arrayReader) (buf : list byte) :
  exhausted ar -> Read ar buf = ([], Returns (0, Some EOF, buf, ar)).
Proof.
  intros [H | [Hs He]].
  - apply Read_failed. exact H.
  - rewrite Read_streaming by exact Hs. rewrite deliver_empty by exact He.
    reflexivity.
Qed.

Lemma deliver_EOF_inv (ar : arrayReader) (buf : list byte)
      (n : nat) (buf' : list byte) (ar' : arrayReader) :
  deliver ar buf = Returns (n, Some EOF, buf', ar') ->
  n = 0 /\ buf' = buf /\ ar' = ar /\ elems (remaining ar) = [].
Proof.
  intro H.
  destruct (deliver_inv ar buf _ H) as [[Hl Hq] | [_ (rest & Hq & _)]].
  - injection Hq as -> -> ->. repeat split.
    apply length_zero_iff_nil. exact Hl.
  - discriminate Hq.
Qed.

Lemma Read_EOF_exhausted (ar : arrayReader) (buf : list byte)
      (tr : list event) (n : nat) (buf' : list byte) (ar' : arrayReader) :
  Read ar buf = (tr, Returns (n, Some EOF, buf', ar')) -> exhausted ar'.
Proof.
  unfold Read. destruct (err ar) as [e0|] eqn:He.
  - intros [= _ _ -> _ <-]. left. exact He.
  - destruct (read ar) eqn:Hr; simpl.
    + intros [= _ H]. apply deliver_EOF_inv in H as (_ & _ & -> & El).
      right. repeat split; assumption.
    + destruct (jsPromise ar) as [|[src|msg|]]; try discriminate.
      intros [= _ H].
      destruct (fromArray_returns (set_read ar true) src) as (s & Hs & _).
      rewrite Hs in H. simpl in H.
      apply deliver_EOF_inv in H as (_ & _ & -> & El).
      right. repeat split; assumption.
Qed.

Lemma slice_from_zero (s : slice) : slice_from s 0 = Returns s.
Proof. destruct s; reflexivity. Qed.

Lemma set_remaining_same (ar : arrayReader) :
  set_remaining ar (remaining ar) = ar.
Proof. destruct ar; reflexivity. Qed.

(** ** Reading a whole buffer *)

Lemma holds_delivers (src : list byte) (bufs : list (list byte))
      (ar : arrayReader) :
  length src <= total_capacity bufs -> holds src ar -> delivers src bufs ar.
Proof.
  intros Hle H.
  destruct (Reads_holds bufs src ar H) as (tr & ar' & HR & Hh).
  exists tr, (spec_reads src bufs), ar'.
  split; [exact HR|]. split; [reflexivity|].
  split; [|split].
  - rewrite delivered_spec_reads. apply firstn_all2. exact Hle.
  - rewrite delivered_count_spec_reads. lia.
  - intro buf. apply Read_holds_nil.
    rewrite skipn_all2 in Hh by exact Hle. exact Hh.
Qed.

(** ** Release and reuse *)

Lemma deliver_alike (a b : arrayReader) (buf : list byte) :
  alike a b ->
  exists n e buf' a' b',
    deliver a buf = Returns (n, e, buf', a')
    /\ deliver b buf = Returns (n, e, buf', b')
    /\ alike a' b'.
Proof.
  intros (Hp & Hr & He & El).
  destruct (elems (remaining a)) as [|x l] eqn:Ea.
  - exists 0, (Some EOF), buf, a, b.
    rewrite !deliver_empty by congruence.
    repeat split; congruence.
  - assert (Na : elems (remaining a) <> []) by (rewrite Ea; discriminate).
    assert (Nb : elems (remaining b) <> []) by (rewrite <- El; discriminate).
    destruct (deliver_nonempty a buf Na) as (ra & Hda & Hea & _).
    destruct (deliver_nonempty b buf Nb) as (rb & Hdb & Heb & _).
    unfold len in *. rewrite <- El in Hdb, Heb. rewrite Ea in Hda, Hea.
    do 5 eexists. split; [exact Hda|]. split; [exact Hdb|].
    repeat split; simpl; congruence.
Qed.

Lemma Read_alike (a b : arrayReader) (buf : list byte) :
  alike a b ->
  fst (Read a buf) = fst (Read b buf)
  /\ match snd (Read a buf), snd (Read b buf) with
     | Returns (n, e, buf', a'), Returns (m, f, buf'', b') =>
         n = m /\ e = f /\ buf' = buf'' /\ alike a' b'
     | Panics, Panics => True
     | Blocks, Blocks => True
     | _, _ => False
     end.
Proof.
  intros H. pose proof H as (Hp & Hr & He & El). unfold Read.
  rewrite <- He, <- Hr. simpl. rewrite <- Hp.
  destruct (err a) as [e0|] eqn:Hea.
  - simpl. repeat split; congruence.
  - destruct (read a) eqn:Hra; simpl.
    + destruct (deliver_alike a b buf H)
        as (n & e & buf' & a' & b' & Ha & Hb & Hab).
      rewrite Ha, Hb. repeat (split; [reflexivity|]). exact Hab.
    + destruct (jsPromise a) as [|[src|msg|]] eqn:Hpa; simpl; auto.
      * destruct (fromArray_returns (set_read a true) src) as (sa & Hsa & Ea).
        destruct (fromArray_returns (set_read b true) src) as (sb & Hsb & Eb).
        rewrite Hsa, Hsb. simpl.
        destruct (deliver_alike (set_remaining (set_read a true) sa)
                                (set_remaining (set_read b true) sb) buf)
          as (n & e & buf' & a' & b' & Ha & Hb & Hab).
        { repeat split; simpl; congruence. }
        rewrite Ha, Hb. repeat (split; [reflexivity|]). exact Hab.
      * repeat (split; [reflexivity|]). repeat split; simpl; congruence.
Qed.

(** Instances that are alike give the same host calls and the same
    results, over any sequence of reads. *)
Lemma Reads_alike (bufs : list (list byte)) :
  forall a b : arrayReader,
    alike a b -> observe (Reads a bufs) = observe (Reads b bufs).
Proof.
  induction bufs as [|buf bufs IH]; intros a b H; [reflexivity|].
  destruct (Read_alike a b buf H) as [Ht Hs]. simpl.
  destruct (Read a buf) as [ta [[[[n e] buf'] a']| |]];
    destruct (Read b buf) as [tb [[[[m f] buf''] b']| |]];
    simpl in Ht, Hs; try contradiction; subst tb; try reflexivity.
  destruct Hs as (-> & -> & -> & Hab).
  specialize (IH a' b' Hab). unfold observe in *.
  destruct (Reads a' bufs) as [ta' [[oa fa]| |]];
    destruct (Reads b' bufs) as [tb' [[ob fb]| |]];
    simpl in *; try discriminate; congruence.
Qed.

Lemma holds_delivered_prefix (src : list byte) (bufs : list (list byte))
      (ar : arrayReader) :
  holds src ar ->
  exists obs,
    snd (observe (Reads ar bufs)) = Returns obs
    /\ delivered obs = firstn (total_capacity bufs) src.
Proof.
  intro H. destruct (Reads_holds bufs src ar H) as (tr & ar' & HR & _).
  exists (spec_reads src bufs). rewrite HR.
  split; [reflexivity | apply delivered_spec_reads].
Qed.

(** ** Storage, shrinking and returning *)

(** The slice [fromArray] returns, with its backing storage: the bytes of
    the buffer, followed by what the old storage has behind them when it is
    reused, by nothing when a new array is made. *)
Lemma fromArray_storage (ar : arrayReader) (src : list byte) :
  exists s,
    fromArray ar src = Returns s /\ elems s = src
    /\ storage s
       = src ++ (if length src <=? cap (remaining ar)
                 then skipn (length src) (storage (remaining ar))
                 else []).
Proof.
  unfold fromArray.
  destruct (Nat.leb_spec (length src) (cap (remaining ar))) as [Hle|Hgt].
  - destruct (remaining ar) as [|e sp]; unfold cap in Hle; simpl in Hle.
    + assert (E : src = []) by (apply length_zero_iff_nil; lia).
      subst src. exists SNil. repeat split.
    + unfold slice_to.
      destruct (Nat.leb_spec (length src) (length (e ++ sp))); [|lia].
      unfold bind, CopyBytesToGo.
      rewrite copy_exact by (apply firstn_skipn_length; exact Hle).
      exists (SMk src (skipn (length src) (e ++ sp))). repeat split.
  - unfold bind, make, CopyBytesToGo.
    rewrite copy_exact by apply repeat_length.
    exists (SMk src []). repeat split.
Qed.

(** [deliver] takes from the front of the window and of the storage what
    it reports. *)
Lemma deliver_shrinks (ar : arrayReader) (buf : list byte)
      (n : nat) (e : option error) (buf' : list byte) (ar' : arrayReader) :
  deliver ar buf = Returns (n, e, buf', ar') ->
  len (remaining ar') + n = len (remaining ar)
  /\ cap (remaining ar') + n = cap (remaining ar).
Proof.
  intro H.
  destruct (deliver_inv ar buf _ H) as [[_ Hq] | [Hpos (rest & Hq & He & Hs)]].
  - injection Hq as -> -> -> ->. split; lia.
  - injection Hq as -> -> -> ->. simpl. unfold len, cap in *.
    rewrite He, Hs, !length_skipn.
    assert (length (elems (remaining ar)) <= length (storage (remaining ar))).
    { destruct (remaining ar) as [|x y]; simpl; [lia|].
      rewrite length_app. lia. }
    split; lia.
Qed.

(** [deliver] always returns. *)
Lemma deliver_returns (ar : arrayReader) (buf : list byte) :
  exists n e buf' ar', deliver ar buf = Returns (n, e, buf', ar').
Proof.
  destruct (elems (remaining ar)) as [|x l] eqn:E.
  - do 4 eexists. apply deliver_empty. exact E.
  - destruct (deliver_nonempty ar buf) as (rest & Hd & _).
    { rewrite E. discriminate. }
    do 4 eexists. exact Hd.
Qed.

(** A settled instance always answers, and stays settled. *)
Lemma Read_settled_returns (ar : arrayReader) (buf : list byte) :
  settled ar ->
  exists n e buf' ar',
    Read ar buf = ([], Returns (n, e, buf', ar')) /\ settled ar'
    /\ read ar' = read ar.
Proof.
  intro H. unfold Read. destruct (err ar) as [e0|] eqn:He.
  - do 4 eexists. split; [reflexivity|]. split; [exact H | reflexivity].
  - destruct H as [Hr | Hn]; [|congruence]. rewrite Hr. simpl.
    destruct (deliver_returns ar buf) as (n & e & buf' & ar' & Hd).
    rewrite Hd. exists n, e, buf', ar'. split; [reflexivity|].
    destruct (deliver_read _ _ _ _ _ _ Hd) as (Hr' & _).
    split; [left|]; congruence.
Qed.

Lemma Reads_settled_returns (bufs : list (list byte)) :
  forall ar : arrayReader,
    settled ar ->
    exists obs ar',
      Reads ar bufs = ([], Returns (obs, ar')) /\ read ar' = read ar.
Proof.
  induction bufs as [|buf bufs IH]; intros ar H.
  - exists [], ar. split; reflexivity.
  - destruct (Read_settled_returns ar buf H)
      as (n & e & buf' & ar1 & HR & Hs & Hr).
    destruct (IH ar1 Hs) as (obs & ar' & HRs & Hr').
    exists ((n, e, buf') :: obs), ar'. simpl. rewrite HR, HRs.
    split; [reflexivity | congruence].
Qed.

(** What [Read] does to the destination. *)
Lemma deliver_destination (ar : arrayReader) (buf : list byte)
      (n : nat) (e : option error) (buf' : list byte) (ar' : arrayReader) :
  deliver ar buf = Returns (n, e, buf', ar') ->
  n <= length buf /\ length buf' = length buf /\ skipn n buf' = skipn n buf
  /\ firstn n buf' = firstn n (elems (remaining ar)).
Proof.
  intro H.
  destruct (deliver_inv ar buf _ H) as [[_ Hq] | [Hpos (rest & Hq & _)]];
    injection Hq as -> -> -> ->.
  - repeat split. lia.
  - set (n := Nat.min (length buf) (len (remaining ar))).
    assert (Hn : length (firstn n (elems (remaining ar))) = n).
    { apply firstn_skipn_length. unfold n, len. lia. }
    split; [unfold n; lia|]. split; [|split].
    + rewrite length_app, Hn, length_skipn. unfold n. lia.
    + rewrite skipn_app, Hn, Nat.sub_diag.
      rewrite skipn_all2 by lia. reflexivity.
    + rewrite firstn_app, Hn, Nat.sub_diag, firstn_0, app_nil_r.
      rewrite firstn_firstn, Nat.min_id. reflexivity.
Qed.

(** * The claims *)

(** [C1] A reader configured from an array buffer [src], or from a promise
    that is fulfilled with [src], and read into destinations whose lengths
    add up to at least [length src]: configuration reports [length src];
    the reads deliver all of [src] (see [delivers]).  And on any instance
    that has waited on its promise, has no failure stored and has bytes
    remaining, one read copies the minimum of [len(buf)] and
    [len(remaining)] bytes to the front of [buf], returns that count with a
    [nil] error, and advances [remaining] past them, window and backing
    storage. *)
Theorem reads_deliver_the_buffer :
  forall (p : pool) (src : list byte) (bufs : list (list byte)),
    pool_ok p ->
    length src <= total_capacity bufs ->
    (exists ar,
        newReaderArrayBuffer p src = Returns (ar, length src, snd (Get p))
        /\ delivers src bufs ar)
    /\ delivers src bufs
                (fst (newReaderArrayPromise p (JsPromise (Fulfilled src))))
    /\ (forall (ar : arrayReader) (buf : list byte),
          read ar = true -> err ar = None -> 0 < len (remaining ar) ->
          let n := Nat.min (length buf) (len (remaining ar)) in
          exists rest,
            Read ar buf
            = ([], Returns (n, None,
                            firstn n (elems (remaining ar)) ++ skipn n buf,
                            set_remaining ar rest))
            /\ elems rest = skipn n (elems (remaining ar))
            /\ storage rest = skipn n (storage (remaining ar))).
Proof.
  intros p src bufs Hp Hle.
  destruct (Get_idle p Hp) as [Hi _].
  split; [|split].
  - destruct (newReaderArrayBuffer_returns p src)
      as (ar & Ha & Hr & He & _ & El).
    exists ar. split; [exact Ha|].
    apply holds_delivers; [exact Hle|].
    destruct Hi as (_ & _ & He0 & _).
    split; [congruence|]. rewrite Hr. exact El.
  - apply holds_delivers; [exact Hle|].
    unfold newReaderArrayPromise. destruct (Get p) as [ar0 p0].
    apply configure_promise_idle. exact Hi.
  - intros ar buf Hr He Hpos n.
    rewrite Read_streaming by (split; assumption).
    destruct (deliver_nonempty ar buf) as (rest & Hd & Hel & Hst).
    { intro E. unfold len in Hpos. rewrite E in Hpos. simpl in Hpos. lia. }
    exists rest. rewrite Hd. repeat split; assumption.
Qed.

Lemma reads_deliver_the_buffer_witness :
  let src := [Byte.x0a; Byte.x0b; Byte.x0c] in
  let bufs := [[Byte.x00; Byte.x00]; [Byte.x00; Byte.x00]] in
  (exists ar,
      newReaderArrayBuffer [] src = Returns (ar, 3, [])
      /\ delivers src bufs ar)
  /\ delivers src bufs
              (fst (newReaderArrayPromise [] (JsPromise (Fulfilled src)))).
Proof.
  intros src bufs.
  assert (H : length src <= total_capacity bufs) by (vm_compute; lia).
  destruct (reads_deliver_the_buffer [] src bufs pool_ok_nil H)
    as (A & B & _).
  split; [exact A | exact B].
Defined.

(** [C2] The failure of a rejected promise is not stored.  A reader taken
    from the empty pool for a promise rejected with "network error": the
    first read returns [(0, "network error")] and leaves [err] at [nil];
    the second read, which the specification has return the same failure,
    returns [(0, io.EOF)]. *)
Theorem rejection_is_not_stored :
  let ar := fst (newReaderArrayPromise
                   [] (JsPromise (Rejected "network error"))) in
  let buf := [Byte.x00; Byte.x00; Byte.x00; Byte.x00] in
  exists ar1,
    Read ar buf = ([EvThen (Rejected "network error")],
                   Returns (0, Some (ErrNew "network error"), buf, ar1))
    /\ err ar1 = None
    /\ Read ar1 buf = ([], Returns (0, Some EOF, buf, ar1)).
Proof.
  intros ar buf. eexists. split; [reflexivity|].
  split; reflexivity.
Qed.

(** [C3] For a reader configured from a promise, sequential reads register
    on the promise at most once in all, whatever the promise does and
    however many reads follow.  When the promise is rejected the only
    registration is the one of the first read: the reads after the failure
    make none. *)
Theorem resolution_block_runs_at_most_once :
  forall (p : pool) (arrayPromise : jsValue) (bufs : list (list byte)),
    let ar := fst (newReaderArrayPromise p arrayPromise) in
    length (fst (Reads ar bufs)) <= 1
    /\ (forall message buf,
          pool_ok p -> arrayPromise = JsPromise (Rejected message) ->
          fst (Reads ar (buf :: bufs)) = [EvThen (Rejected message)]).
Proof.
  intros p v bufs ar. split; [apply Reads_registrations|].
  intros msg buf Hp ->. subst ar. unfold newReaderArrayPromise.
  destruct (Get_idle p Hp) as [(_ & Hr & He & _) _].
  destruct (Get p) as [ar0 p0]. simpl in *.
  unfold Read. simpl. rewrite He, Hr. simpl.
  pose proof (Reads_settled bufs (set_read
     (set_jsPromise ar0 (JsPromise (Rejected msg))) true)) as Hq.
  destruct (Reads _ bufs) as [tr' o]. simpl in *.
  rewrite Hq; [reflexivity | left; reflexivity].
Qed.

Lemma resolution_block_runs_at_most_once_witness :
  let ar := fst (newReaderArrayPromise [] (JsPromise (Rejected "network error"))) in
  length (fst (Reads ar [[Byte.x00]; [Byte.x00]])) <= 1
  /\ fst (Reads ar [[Byte.x00]; [Byte.x00]; [Byte.x00]])
     = [EvThen (Rejected "network error")].
Proof.
  split.
  - apply (resolution_block_runs_at_most_once
             [] (JsPromise (Rejected "network error"))
             [[Byte.x00]; [Byte.x00]]).
  - apply (proj2 (resolution_block_runs_at_most_once
                    [] (JsPromise (Rejected "network error"))
                    [[Byte.x00]; [Byte.x00]])
                 "network error"%string [Byte.x00]);
      [exact pool_ok_nil | reflexivity].
Defined.

(** [C4] An instance in any state [old], released by [Close] and taken from
    the pool again.  Configured from an array buffer [src], or from any
    promise, it gives over any sequence of reads the very host calls and
    results that a fresh [new(arrayReader)] configured the same way gives:
    nothing of [old] reaches the caller.  With an array buffer [src], or a
    promise fulfilled with [src], the bytes delivered are the front of
    [src]. *)
Theorem reacquired_reader_delivers_only_new_bytes :
  forall (bufMax : Z) (old : arrayReader) (p : pool)
         (bufs : list (list byte)),
  exists released,
    Close bufMax old p = Returns (None, released :: p)
    /\ (forall src, exists ar fresh,
          newReaderArrayBuffer (released :: p) src
          = Returns (ar, length src, p)
          /\ newReaderArrayBuffer [] src = Returns (fresh, length src, [])
          /\ observe (Reads ar bufs) = observe (Reads fresh bufs)
          /\ exists obs,
              snd (observe (Reads ar bufs)) = Returns obs
              /\ delivered obs = firstn (total_capacity bufs) src)
    /\ (forall arrayPromise,
          let ar := fst (newReaderArrayPromise (released :: p) arrayPromise) in
          let fresh := fst (newReaderArrayPromise [] arrayPromise) in
          observe (Reads ar bufs) = observe (Reads fresh bufs))
    /\ (forall src,
          let ar := fst (newReaderArrayPromise
                           (released :: p) (JsPromise (Fulfilled src))) in
          exists obs,
            snd (observe (Reads ar bufs)) = Returns obs
            /\ delivered obs = firstn (total_capacity bufs) src).
Proof.
  intros bufMax old p bufs.
  destruct (Reset_returns bufMax old) as (rel & HR & Hi & _).
  exists rel. unfold Close. rewrite HR.
  split; [reflexivity|].
  pose proof Hi as (Hp & Hr & He & Hl).
  assert (El : elems (remaining rel) = [])
    by (apply length_zero_iff_nil; exact Hl).
  split; [|split].
  - intro src.
    destruct (newReaderArrayBuffer_returns (rel :: p) src)
      as (ar & Ha & Ra & Ea & Pa & La).
    destruct (newReaderArrayBuffer_returns [] src)
      as (fresh & Hf & Rf & Ef & Pf & Lf).
    simpl in *. exists ar, fresh.
    split; [exact Ha|]. split; [exact Hf|]. split.
    + apply Reads_alike. repeat split; congruence.
    + apply holds_delivered_prefix. split; [congruence|].
      rewrite Ra. exact La.
  - intros v. cbv zeta. apply Reads_alike. simpl.
    repeat split; simpl; congruence.
  - intros src. cbv zeta. apply holds_delivered_prefix. simpl.
    apply configure_promise_idle. exact Hi.
Qed.

(** [C5] [Close] puts into the pool the instance as [Reset] leaves it: the
    promise handle, the [read] flag and the error are cleared; when the
    capacity of [remaining] is below the threshold, [remaining] has length
    zero on the same backing storage, and otherwise it is [nil]. *)
Theorem Close_resets_then_pools :
  forall (bufMax : Z) (ar : arrayReader) (p : pool),
  exists ar',
    Close bufMax ar p = Returns (None, ar' :: p)
    /\ Reset bufMax ar = Returns ar'
    /\ jsPromise ar' = JsUndefined /\ read ar' = false /\ err ar' = None
    /\ ((Z.of_nat (cap (remaining ar)) < bufMax)%Z ->
        len (remaining ar') = 0
        /\ storage (remaining ar') = storage (remaining ar))
    /\ ((bufMax <= Z.of_nat (cap (remaining ar)))%Z ->
        remaining ar' = SNil).
Proof.
  intros bufMax ar p.
  destruct (Reset_returns bufMax ar)
    as (ar' & HR & (Hp & Hr & He & Hl) & Hlt & Hge).
  exists ar'. unfold Close. rewrite HR.
  repeat split; auto.
Qed.

Lemma Close_resets_then_pools_witness :
  exists ar',
    Close 4 (mkReader JsUndefined (SMk [Byte.x07] [Byte.x08]) true None) []
    = Returns (None, [ar'])
    /\ len (remaining ar') = 0
    /\ storage (remaining ar') = [Byte.x07; Byte.x08].
Proof.
  destruct (Close_resets_then_pools
              4 (mkReader JsUndefined (SMk [Byte.x07] [Byte.x08]) true None) [])
    as (ar' & HC & _ & _ & _ & _ & Hlt & _).
  exists ar'. split; [exact HC|].
  apply Hlt. simpl. lia.
Defined.

(** [C6] Once a read has returned [(0, io.EOF)], every later read on the
    instance returns [(0, io.EOF)] too, leaves the destination and the
    instance as they are, and makes no host call. *)
Theorem end_of_data_repeats :
  forall (ar : arrayReader) (buf : list byte) (tr : list event)
         (buf' : list byte) (ar' : arrayReader),
    Read ar buf = (tr, Returns (0, Some EOF, buf', ar')) ->
    forall bufs : list (list byte),
      Reads ar' bufs
      = ([], Returns (map (fun b => (0, Some EOF, b)) bufs, ar')).
Proof.
  intros ar buf tr buf' ar' H bufs.
  apply Read_EOF_exhausted in H.
  induction bufs as [|b bufs IH]; [reflexivity|].
  simpl. rewrite (Read_exhausted ar' b H), IH. reflexivity.
Qed.

Lemma end_of_data_repeats_witness :
  let ar := fst (newReaderArrayPromise [] (JsPromise (Fulfilled []))) in
  exists ar',
    Reads ar' [[Byte.x01]; []]
    = ([], Returns ([(0, Some EOF, [Byte.x01]); (0, Some EOF, [])], ar')).
Proof.
  intro ar. eexists.
  apply (end_of_data_repeats ar [Byte.x00] [EvThen (Fulfilled [])]
                             [Byte.x00] _ eq_refl [[Byte.x01]; []]).
Defined.

(** [C7] A read that returns the failure of a rejected promise leaves
    [remaining] as it was, window and backing storage, writes nothing to
    the destination and reports zero bytes. *)
Theorem rejection_keeps_remaining :
  forall (ar : arrayReader) (buf : list byte) (tr : list event) (n : nat)
         (message : string) (buf' : list byte) (ar' : arrayReader),
    Read ar buf = (tr, Returns (n, Some (ErrNew message), buf', ar')) ->
    remaining ar' = remaining ar /\ buf' = buf /\ n = 0.
Proof.
  intros ar buf tr n msg buf' ar'. unfold Read.
  destruct (err ar) as [e0|] eqn:He.
  - intros [= _ <- _ <- <-]. repeat split.
  - destruct (read ar) eqn:Hr; simpl.
    + intros [= _ H].
      destruct (deliver_inv ar buf _ H) as [[_ Hq] | [_ (rest & Hq & _)]];
        discriminate Hq.
    + destruct (jsPromise ar) as [|[src|m|]]; try discriminate.
      * intros [= _ H].
        destruct (fromArray_returns (set_read ar true) src) as (s & Hs & _).
        rewrite Hs in H. simpl in H.
        destruct (deliver_inv _ buf _ H) as [[_ Hq] | [_ (rest & Hq & _)]];
          discriminate Hq.
      * intros [= _ <- _ <- <-]. repeat split.
Qed.

Lemma rejection_keeps_remaining_witness :
  let ar := mkReader (JsPromise (Rejected "network error"))
                     (SMk [] [Byte.x07; Byte.x08]) false None in
  exists ar',
    Read ar [Byte.x00] = ([EvThen (Rejected "network error")],
                          Returns (0, Some (ErrNew "network error"),
                                   [Byte.x00], ar'))
    /\ remaining ar' = SMk [] [Byte.x07; Byte.x08].
Proof.
  intro ar. eexists. split; [reflexivity|].
  apply (rejection_keeps_remaining ar [Byte.x00] _ 0 "network error"
                                   [Byte.x00] _ eq_refl).
Defined.

(** [C8] On an instance in use with no failure stored: when [remaining] is
    not empty, a read into a destination of length zero returns [(0, nil)]
    and leaves the instance, [remaining] included, exactly as it was.  When
    the promise has been waited on and [remaining] is empty, the same read
    returns [(0, io.EOF)]; so does the first read on a promise that is
    fulfilled with an empty buffer. *)
Theorem zero_length_read :
  forall ar : arrayReader,
    InUse ar -> err ar = None ->
    (0 < len (remaining ar) ->
     Read ar [] = ([], Returns (0, None, [], ar)))
    /\ (read ar = true -> len (remaining ar) = 0 ->
        Read ar [] = ([], Returns (0, Some EOF, [], ar)))
    /\ (read ar = false -> jsPromise ar = JsPromise (Fulfilled []) ->
        exists tr ar', Read ar [] = (tr, Returns (0, Some EOF, [], ar'))).
Proof.
  intros ar Hu He. destruct (InUse_inv ar Hu) as [_ Hl].
  split; [|split].
  - intro Hpos.
    assert (Hr : read ar = true).
    { destruct (read ar); [reflexivity|]. specialize (Hl eq_refl). lia. }
    rewrite Read_streaming by (split; assumption).
    unfold deliver.
    destruct (Nat.ltb_spec (len (remaining ar)) 1); [lia|].
    unfold copy. simpl. rewrite slice_from_zero. simpl.
    rewrite set_remaining_same. reflexivity.
  - intros Hr H0. apply Read_exhausted. right.
    split; [split; assumption|]. apply length_zero_iff_nil. exact H0.
  - intros Hr Hp. apply Read_holds_nil. split; [exact He|].
    rewrite Hr. exact Hp.
Qed.

Lemma zero_length_read_witness :
  exists ar,
    newReaderArrayBuffer [] [Byte.x01; Byte.x02]
    = Returns (ar, 2, [])
    /\ Read ar [] = ([], Returns (0, None, [], ar)).
Proof.
  exists (mkReader JsUndefined (SMk [Byte.x01; Byte.x02] []) true None).
  split; [reflexivity|].
  apply (zero_length_read
           (mkReader JsUndefined (SMk [Byte.x01; Byte.x02] []) true None)).
  - apply (InUse_buffer [] [Byte.x01; Byte.x02] _ 2 [] pool_ok_nil eq_refl).
  - reflexivity.
  - unfold len. simpl. lia.
Defined.

(** [C9] A reader configured from an array buffer of length zero reports
    the byte count 0, and its first read returns [(0, io.EOF)] with the
    destination untouched, without any host call. *)
Theorem empty_buffer_reads_end_of_data :
  forall (p : pool) (buf : list byte),
    pool_ok p ->
    exists ar,
      newReaderArrayBuffer p [] = Returns (ar, 0, snd (Get p))
      /\ Read ar buf = ([], Returns (0, Some EOF, buf, ar)).
Proof.
  intros p buf Hp.
  destruct (newReaderArrayBuffer_returns p [])
    as (ar & Ha & Hr & He & _ & El).
  destruct (Get_idle p Hp) as [(_ & _ & He0 & _) _].
  exists ar. split; [exact Ha|].
  apply Read_exhausted. right. repeat split; congruence.
Qed.

Lemma empty_buffer_reads_end_of_data_witness :
  exists ar,
    newReaderArrayBuffer [] [] = Returns (ar, 0, [])
    /\ Read ar [Byte.x2a; Byte.x2a]
       = ([], Returns (0, Some EOF, [Byte.x2a; Byte.x2a], ar)).
Proof.
  apply (empty_buffer_reads_end_of_data [] [Byte.x2a; Byte.x2a] pool_ok_nil).
Defined.

(** [C10] Whatever the instance, a read that returns gives [(n, nil)] with
    [n <= len(buf)], or [(0, io.EOF)], or [(0, failure)]: a non-nil error
    always comes with zero bytes. *)
Theorem Read_result_shape :
  forall (ar : arrayReader) (buf : list byte) (tr : list event) (n : nat)
         (e : option error) (buf' : list byte) (ar' : arrayReader),
    Read ar buf = (tr, Returns (n, e, buf', ar')) ->
    (e = None /\ n <= length buf)
    \/ (e = Some EOF /\ n = 0)
    \/ ((exists message, e = Some (ErrNew message)) /\ n = 0).
Proof.
  assert (D : forall a buf n e buf' ar',
             deliver a buf = Returns (n, e, buf', ar') ->
             (e = None /\ n <= length buf) \/ (e = Some EOF /\ n = 0)).
  { intros a buf n e buf' ar' H.
    destruct (deliver_inv a buf _ H) as [[_ Hq] | [_ (rest & Hq & _)]];
      injection Hq as -> -> -> ->; [right | left]; split;
      try reflexivity. apply Nat.le_min_l. }
  intros ar buf tr n e buf' ar'. unfold Read.
  destruct (err ar) as [e0|] eqn:He.
  - intros [= _ <- <- _ _]. destruct e0 as [|msg].
    + right; left. split; reflexivity.
    + right; right. split; [exists msg|]; reflexivity.
  - destruct (read ar) eqn:Hr; simpl.
    + intros [= _ H]. apply D in H. tauto.
    + destruct (jsPromise ar) as [|[src|msg|]]; try discriminate.
      * intros [= _ H].
        destruct (fromArray_returns (set_read ar true) src) as (s & Hs & _).
        rewrite Hs in H. simpl in H. apply D in H. tauto.
      * intros [= _ <- <- _ _]. right; right.
        split; [exists msg|]; reflexivity.
Qed.

Lemma Read_result_shape_witness :
  (None = @None error /\ 2 <= length [Byte.x00; Byte.x00; Byte.x00])
  \/ (@None error = Some EOF /\ 2 = 0)
  \/ ((exists message, @None error = Some (ErrNew message)) /\ 2 = 0).
Proof.
  apply (Read_result_shape
           (mkReader JsUndefined (SMk [Byte.x01; Byte.x02] []) true None)
           [Byte.x00; Byte.x00; Byte.x00] []
           2 None [Byte.x01; Byte.x02; Byte.x00]
           (mkReader JsUndefined (SMk [] []) true None) eq_refl).
Defined.

(** * Further properties of the code *)

Lemma Reads_exhausted (bufs : list (list byte)) (ar : arrayReader) :
  exhausted ar ->
  Reads ar bufs = ([], Returns (map (fun b => (0, Some EOF, b)) bufs, ar)).
Proof.
  intro H. induction bufs as [|b bufs IH]; [reflexivity|].
  simpl. rewrite (Read_exhausted ar b H), IH. reflexivity.
Qed.

Lemma cap_ge_len (s : slice) : len s <= cap s.
Proof.
  unfold len, cap. destruct s as [|e sp]; simpl; [lia|].
  rewrite length_app. lia.
Qed.

(** [X1] [fromArray] never panics and returns a slice holding exactly the
    bytes of the array buffer.  When the buffer fits the capacity of
    [ar.remaining] the backing storage is reused: the capacity is kept and
    the old bytes behind the new ones stay where they were.  When it does
    not fit, a new array of exactly the length of the buffer is made. *)
Theorem fromArray_reuses_or_allocates :
  forall (ar : arrayReader) (src : list byte),
  exists s,
    fromArray ar src = Returns s
    /\ elems s = src
    /\ (length src <= cap (remaining ar) ->
        cap s = cap (remaining ar)
        /\ storage s = src ++ skipn (length src) (storage (remaining ar)))
    /\ (cap (remaining ar) < length src ->
        cap s = length src /\ storage s = src).
Proof.
  intros ar src.
  destruct (fromArray_storage ar src) as (s & Hf & He & Hs).
  exists s. split; [exact Hf|]. split; [exact He|].
  destruct (Nat.leb_spec (length src) (cap (remaining ar))) as [Hle|Hgt].
  - split; [|lia]. intros _. split; [|exact Hs].
    unfold cap in *. rewrite Hs, length_app, length_skipn. lia.
  - split; [lia|]. intros _. rewrite app_nil_r in Hs.
    unfold cap. rewrite Hs. split; reflexivity.
Qed.

Lemma fromArray_reuses_or_allocates_witness :
  let ar := mkReader JsUndefined
                     (SMk [] [Byte.x07; Byte.x08; Byte.x09]) false None in
  (exists s, fromArray ar [Byte.xa0; Byte.xa1] = Returns s
             /\ cap s = 3
             /\ storage s = [Byte.xa0; Byte.xa1; Byte.x09])
  /\ (exists s, fromArray ar [Byte.xa0; Byte.xa1; Byte.xa2; Byte.xa3]
                = Returns s
                /\ cap s = 4).
Proof.
  intro ar. split.
  - destruct (fromArray_reuses_or_allocates ar [Byte.xa0; Byte.xa1])
      as (s & Hf & _ & Hre & _).
    exists s. split; [exact Hf|].
    apply Hre. vm_compute. lia.
  - destruct (fromArray_reuses_or_allocates
                ar [Byte.xa0; Byte.xa1; Byte.xa2; Byte.xa3])
      as (s & Hf & _ & _ & Hal).
    exists s. split; [exact Hf|].
    apply Hal. vm_compute. lia.
Defined.

(** [X2] [Reset] is idempotent: resetting an instance that has been reset
    changes nothing. *)
Theorem Reset_idempotent :
  forall (bufMax : Z) (ar : arrayReader),
    (ar' <- Reset bufMax ar ;; Reset bufMax ar') = Reset bufMax ar.
Proof.
  intros bufMax [jp rem rd er]. unfold Reset. cbn [remaining].
  destruct rem as [|e sp]; unfold cap; cbn [storage].
  - destruct (Z.ltb_spec (Z.of_nat (length (@nil byte))) bufMax) as [H|H];
      cbn; unfold cap; cbn;
      destruct (Z.ltb_spec 0 bufMax); try lia; reflexivity.
  - destruct (Z.ltb_spec (Z.of_nat (length (e ++ sp))) bufMax) as [H|H]; cbn.
    + unfold cap. cbn.
      destruct (Z.ltb_spec (Z.of_nat (length (e ++ sp))) bufMax); [|lia].
      reflexivity.
    + unfold cap. cbn. destruct (Z.ltb_spec 0 bufMax); reflexivity.
Qed.

(** [X3] [Reset] bounds what an idle instance keeps: after it [remaining]
    has no storage at all, or storage of a capacity below the threshold,
    and never more storage than before. *)
Theorem Reset_bounds_storage :
  forall (bufMax : Z) (ar : arrayReader),
  exists ar',
    Reset bufMax ar = Returns ar'
    /\ (cap (remaining ar') = 0
        \/ (Z.of_nat (cap (remaining ar')) < bufMax)%Z)
    /\ cap (remaining ar') <= cap (remaining ar).
Proof.
  intros bufMax ar.
  destruct (Reset_returns bufMax ar) as (ar' & HR & _ & Hlt & Hge).
  exists ar'. split; [exact HR|].
  destruct (Z.lt_ge_cases (Z.of_nat (cap (remaining ar))) bufMax) as [H|H].
  - specialize (Hlt H). unfold cap. rewrite Hlt. fold (cap (remaining ar)).
    split; [right; exact H | lia].
  - rewrite (Hge H). unfold cap. simpl. split; [left; reflexivity | lia].
Qed.

(** [X4] Storage kept over a release.  An instance released with a capacity
    below the threshold and taken again for an array buffer that fits this
    capacity keeps its storage: the new bytes are written over the front of
    it and the capacity is the one it had.  Released with a capacity at or
    above the threshold, or taken for a buffer that does not fit, it gets
    storage of exactly the length of the buffer. *)
Theorem storage_kept_over_release :
  forall (bufMax : Z) (old : arrayReader) (p : pool) (src : list byte),
  exists released ar,
    Close bufMax old p = Returns (None, released :: p)
    /\ newReaderArrayBuffer (released :: p) src = Returns (ar, length src, p)
    /\ elems (remaining ar) = src
    /\ ((Z.of_nat (cap (remaining old)) < bufMax)%Z ->
        length src <= cap (remaining old) ->
        cap (remaining ar) = cap (remaining old)
        /\ storage (remaining ar)
           = src ++ skipn (length src) (storage (remaining old)))
    /\ ((bufMax <= Z.of_nat (cap (remaining old)))%Z
        \/ cap (remaining old) < length src ->
        storage (remaining ar) = src).
Proof.
  intros bufMax old p src.
  destruct (Reset_returns bufMax old) as (rel & HR & _ & Hlt & Hge).
  destruct (fromArray_storage rel src) as (s & Hf & He & Hs).
  exists rel, (set_read (set_remaining rel s) true).
  unfold Close. rewrite HR.
  split; [reflexivity|]. unfold newReaderArrayBuffer. simpl. rewrite Hf.
  simpl. unfold len. rewrite He.
  split; [reflexivity|]. split; [reflexivity|]. split.
  - intros H1 H2. specialize (Hlt H1).
    unfold cap in *. rewrite Hlt in Hs.
    destruct (Nat.leb_spec (length src) (length (storage (remaining old))));
      [|lia].
    split; [|exact Hs]. rewrite Hs, length_app, length_skipn. lia.
  - intros [H|H].
    + rewrite (Hge H) in Hs. unfold cap in Hs. simpl in Hs.
      rewrite Hs. destruct (length src <=? 0); [rewrite skipn_nil|];
        apply app_nil_r.
    + destruct (Z.lt_ge_cases (Z.of_nat (cap (remaining old))) bufMax)
        as [H1|H1].
      * specialize (Hlt H1). unfold cap in *. rewrite Hlt in Hs.
        destruct (Nat.leb_spec (length src)
                               (length (storage (remaining old)))); [lia|].
        rewrite Hs. apply app_nil_r.
      * rewrite (Hge H1) in Hs. unfold cap in Hs. simpl in Hs.
        rewrite Hs. destruct (length src <=? 0); [rewrite skipn_nil|];
          apply app_nil_r.
Qed.

Lemma storage_kept_over_release_witness :
  let old := mkReader JsUndefined
                      (SMk [Byte.x04; Byte.x05] [Byte.x06; Byte.x07])
                      true None in
  exists released ar,
    Close 1024 old [] = Returns (None, [released])
    /\ newReaderArrayBuffer [released] [Byte.xa0; Byte.xa1; Byte.xa2]
       = Returns (ar, 3, [])
    /\ cap (remaining ar) = 4
    /\ storage (remaining ar) = [Byte.xa0; Byte.xa1; Byte.xa2; Byte.x07].
Proof.
  intro old.
  destruct (storage_kept_over_release
              1024 old [] [Byte.xa0; Byte.xa1; Byte.xa2])
    as (rel & ar & HC & HN & _ & Hkeep & _).
  exists rel, ar. split; [exact HC|]. split; [exact HN|].
  apply Hkeep; vm_compute; [reflexivity | lia].
Defined.

(** [X5] Once the promise has been waited on, a read only shrinks
    [remaining]: its length and its capacity both go down by the number of
    bytes the read reports.  The storage in front of the window is given
    up, so an instance read to the end has no capacity left of its
    buffer. *)
Theorem Read_shrinks_remaining :
  forall (ar : arrayReader) (buf : list byte) (tr : list event) (n : nat)
         (e : option error) (buf' : list byte) (ar' : arrayReader),
    read ar = true ->
    Read ar buf = (tr, Returns (n, e, buf', ar')) ->
    len (remaining ar') + n = len (remaining ar)
    /\ cap (remaining ar') + n = cap (remaining ar).
Proof.
  intros ar buf tr n e buf' ar' Hr. unfold Read. rewrite Hr.
  destruct (err ar) as [e0|].
  - intros [= _ <- _ _ <-]. split; lia.
  - simpl. intros [= _ H]. apply (deliver_shrinks _ _ _ _ _ _ H).
Qed.

Lemma Read_shrinks_remaining_witness :
  let ar := mkReader JsUndefined
                     (SMk [Byte.x01; Byte.x02; Byte.x03] [Byte.x04])
                     true None in
  exists ar',
    Read ar [Byte.x00; Byte.x00]
    = ([], Returns (2, None, [Byte.x01; Byte.x02], ar'))
    /\ len (remaining ar') + 2 = 3 /\ cap (remaining ar') + 2 = 4.
Proof.
  intro ar. eexists. split; [reflexivity|].
  apply (Read_shrinks_remaining ar [Byte.x00; Byte.x00] [] 2 None
                                [Byte.x01; Byte.x02] _ eq_refl eq_refl).
Defined.



(** [X7] An instance that has been closed panics when it is read again,
    whatever it held: [Reset] has cleared its promise and its [read]
    flag, and the call of [then] on the zero [js.Value] panics. *)
Theorem Read_after_Close_panics :
  forall (bufMax : Z) (ar : arrayReader) (p : pool) (buf : list byte),
  exists released,
    Close bufMax ar p = Returns (None, released :: p)
    /\ Read released buf = ([], Panics).
Proof.
  intros bufMax ar p buf.
  destruct (Reset_returns bufMax ar) as (rel & HR & (Hp & Hr & He & _) & _).
  exists rel. unfold Close. rewrite HR. split; [reflexivity|].
  unfold Read. rewrite He, Hr. simpl. rewrite Hp. reflexivity.
Qed.

(** [X8] What a read does to the destination: it keeps its length, writes
    only its first [n] bytes, [n] being the count returned and at most
    [len(buf)], and writes nothing at all when it returns an error. *)
Theorem Read_writes_only_the_front :
  forall (ar : arrayReader) (buf : list byte) (tr : list event) (n : nat)
         (e : option error) (buf' : list byte) (ar' : arrayReader),
    Read ar buf = (tr, Returns (n, e, buf', ar')) ->
    n <= length buf
    /\ length buf' = length buf
    /\ skipn n buf' = skipn n buf
    /\ (e <> None -> buf' = buf).
Proof.
  assert (D : forall a buf n e buf' ar',
             deliver a buf = Returns (n, e, buf', ar') ->
             n <= length buf /\ length buf' = length buf
             /\ skipn n buf' = skipn n buf /\ (e <> None -> buf' = buf)).
  { intros a buf n e buf' ar' H.
    destruct (deliver_destination a buf _ _ _ _ H) as (H1 & H2 & H3 & _).
    repeat split; try assumption.
    destruct (deliver_inv a buf _ H) as [[_ Hq] | [_ (rest & Hq & _)]];
      injection Hq as -> -> -> ->; [reflexivity | congruence]. }
  intros ar buf tr n e buf' ar'. unfold Read.
  destruct (err ar) as [e0|].
  - intros [= _ <- _ <- _]. repeat split. lia.
  - destruct (read ar); simpl.
    + intros [= _ H]. apply (D _ _ _ _ _ _ H).
    + destruct (jsPromise ar) as [|[src|msg|]]; try discriminate.
      * intros [= _ H].
        destruct (fromArray_returns (set_read ar true) src) as (s & Hs & _).
        rewrite Hs in H. simpl in H. apply (D _ _ _ _ _ _ H).
      * intros [= _ <- _ <- _]. repeat split. lia.
Qed.

Lemma Read_writes_only_the_front_witness :
  2 <= length [Byte.xf0; Byte.xf1; Byte.xf2]
  /\ length [Byte.x01; Byte.x02; Byte.xf2]
     = length [Byte.xf0; Byte.xf1; Byte.xf2]
  /\ skipn 2 [Byte.x01; Byte.x02; Byte.xf2]
     = skipn 2 [Byte.xf0; Byte.xf1; Byte.xf2]
  /\ (@None error <> None ->
      [Byte.x01; Byte.x02; Byte.xf2] = [Byte.xf0; Byte.xf1; Byte.xf2]).
Proof.
  apply (Read_writes_only_the_front
           (mkReader JsUndefined (SMk [Byte.x01; Byte.x02] []) true None)
           [Byte.xf0; Byte.xf1; Byte.xf2] [] 2 None
           [Byte.x01; Byte.x02; Byte.xf2]
           (mkReader JsUndefined (SMk [] []) true None) eq_refl).
Defined.

(** [X9] A reader made by [newReaderArrayBuffer] never touches a promise:
    whatever instance the pool hands out, every sequence of reads returns,
    without panic or blocking, and makes no host call. *)
Theorem buffer_reader_makes_no_host_call :
  forall (p : pool) (src : list byte) (bufs : list (list byte)),
  exists ar obs ar',
    newReaderArrayBuffer p src = Returns (ar, length src, snd (Get p))
    /\ Reads ar bufs = ([], Returns (obs, ar')).
Proof.
  intros p src bufs.
  destruct (newReaderArrayBuffer_returns p src) as (ar & Ha & Hr & _).
  destruct (Reads_settled_returns bufs ar (or_introl Hr))
    as (obs & ar' & HR & _).
  exists ar, obs, ar'. split; assumption.
Qed.

(** [X10] Short reads.  Whatever the destinations, the reads on a reader
    made from an array buffer [src] deliver the front of [src] as far as
    the destinations reach, and what is left of [src] stays in
    [remaining]: only the sum of the lengths of the destinations counts,
    not how the caller cuts its reads. *)
Theorem reads_deliver_a_prefix :
  forall (p : pool) (src : list byte) (bufs : list (list byte)),
    pool_ok p ->
    exists ar obs ar',
      newReaderArrayBuffer p src = Returns (ar, length src, snd (Get p))
      /\ Reads ar bufs = ([], Returns (obs, ar'))
      /\ delivered obs = firstn (total_capacity bufs) src
      /\ delivered_count obs = Nat.min (total_capacity bufs) (length src)
      /\ elems (remaining ar') = skipn (total_capacity bufs) src.
Proof.
  intros p src bufs Hp.
  destruct (newReaderArrayBuffer_returns p src)
    as (ar & Ha & Hr & He & _ & El).
  destruct (Get_idle p Hp) as [(_ & _ & He0 & _) _].
  assert (H : holds src ar).
  { split; [congruence|]. rewrite Hr. exact El. }
  destruct (Reads_holds bufs src ar H) as (tr & ar' & HR & _ & Hh).
  destruct (Reads_settled_returns bufs ar (or_introl Hr))
    as (obs & ar2 & HR2 & Hr2).
  rewrite HR in HR2. injection HR2 as -> <- <-.
  exists ar, (spec_reads src bufs), ar'.
  split; [exact Ha|]. split; [exact HR|].
  split; [apply delivered_spec_reads|].
  split; [apply delivered_count_spec_reads|].
  rewrite Hr2, Hr in Hh. exact Hh.
Qed.

Lemma reads_deliver_a_prefix_witness :
  let src := [Byte.x0a; Byte.x0b; Byte.x0c; Byte.x0d; Byte.x0e] in
  let bufs := [[Byte.x00; Byte.x00]; []; [Byte.x00]] in
  exists ar obs ar',
    newReaderArrayBuffer [] src = Returns (ar, 5, [])
    /\ Reads ar bufs = ([], Returns (obs, ar'))
    /\ delivered obs = [Byte.x0a; Byte.x0b; Byte.x0c]
    /\ delivered_count obs = 3
    /\ elems (remaining ar') = [Byte.x0d; Byte.x0e].
Proof.
  intros src bufs.
  apply (reads_deliver_a_prefix [] src bufs pool_ok_nil).
Defined.

(** [X11] No operation stores a failure: on every instance between its
    configuration and its release [err] is [nil], after any reads and
    whatever the promise did. *)
Theorem failure_is_never_stored :
  forall ar : arrayReader, InUse ar -> err ar = None.
Proof. intros ar H. apply (InUse_inv ar H). Qed.

Lemma failure_is_never_stored_witness :
  err (mkReader (JsPromise (Rejected "network error")) SNil true None)
  = None.
Proof.
  apply failure_is_never_stored.
  apply (InUse_read
           (fst (newReaderArrayPromise
                   [] (JsPromise (Rejected "network error"))))
           [Byte.x00] [EvThen (Rejected "network error")]
           0 (Some (ErrNew "network error")) [Byte.x00]);
    [|reflexivity].
  apply (InUse_promise [] (JsPromise (Rejected "network error")) _ []
                       pool_ok_nil eq_refl).
Defined.

(** [X12] Reads on a rejected promise.  On a reader taken from the pool for
    a promise that is rejected with [message], the first read registers on
    the promise once and returns [(0, errors.New(message))] with the
    destination untouched; every read after it returns [(0, io.EOF)] and
    makes no host call. *)
Theorem reads_on_a_rejected_promise :
  forall (p : pool) (message : string) (buf : list byte)
         (bufs : list (list byte)),
    pool_ok p ->
    let ar := fst (newReaderArrayPromise p (JsPromise (Rejected message))) in
    exists ar',
      Reads ar (buf :: bufs)
      = ([EvThen (Rejected message)],
         Returns ((0, Some (ErrNew message), buf)
                    :: map (fun b => (0, Some EOF, b)) bufs, ar')).
Proof.
  intros p msg buf bufs Hp.
  destruct (Get_idle p Hp) as [(_ & Hr & He & Hl) _].
  unfold newReaderArrayPromise. destruct (Get p) as [ar0 p0]. simpl in *.
  set (ar1 := set_read (set_jsPromise ar0 (JsPromise (Rejected msg))) true).
  exists ar1. unfold Read. simpl. rewrite He, Hr. simpl. fold ar1.
  rewrite (Reads_exhausted bufs ar1); [reflexivity|].
  right. repeat split; simpl; try assumption.
  apply length_zero_iff_nil. exact Hl.
Qed.

Lemma reads_on_a_rejected_promise_witness :
  let ar := fst (newReaderArrayPromise [] (JsPromise (Rejected "boom"))) in
  exists ar',
    Reads ar [[Byte.x00]; [Byte.x01]]
    = ([EvThen (Rejected "boom")],
       Returns ([(0, Some (ErrNew "boom"), [Byte.x00]);
                 (0, Some EOF, [Byte.x01])], ar')).
Proof.
  apply (reads_on_a_rejected_promise [] "boom" [Byte.x00] [[Byte.x01]]
                                     pool_ok_nil).
Defined.



(** [X14] The two constructors agree.  Taken from the same pool, a reader
    made from an array buffer and a reader made from a promise that is
    fulfilled with the same buffer give the same results over any sequence
    of reads; only the one registration on the promise tells them
    apart. *)
Theorem constructors_agree :
  forall (p : pool) (src : list byte) (bufs : list (list byte)),
    pool_ok p ->
    exists ar,
      newReaderArrayBuffer p src = Returns (ar, length src, snd (Get p))
      /\ snd (observe (Reads ar bufs))
         = snd (observe
                  (Reads (fst (newReaderArrayPromise
                                 p (JsPromise (Fulfilled src)))) bufs)).
Proof.
  intros p src bufs Hp.
  destruct (newReaderArrayBuffer_returns p src)
    as (ar & Ha & Hr & He & _ & El).
  destruct (Get_idle p Hp) as [Hi _].
  exists ar. split; [exact Ha|].
  assert (H : holds src ar).
  { destruct Hi as (_ & _ & He0 & _). split; [congruence|].
    rewrite Hr. exact El. }
  destruct (Reads_holds bufs src ar H) as (tr & ar' & HR & _).
  assert (H2 : holds src (fst (newReaderArrayPromise
                                 p (JsPromise (Fulfilled src))))).
  { unfold newReaderArrayPromise. destruct (Get p) as [ar0 p0].
    apply configure_promise_idle. exact Hi. }
  destruct (Reads_holds bufs src _ H2) as (tr2 & ar2 & HR2 & _).
  rewrite HR, HR2. reflexivity.
Qed.

Lemma constructors_agree_witness :
  let src := [Byte.x0a; Byte.x0b; Byte.x0c] in
  let bufs := [[Byte.x00; Byte.x00]; [Byte.x00; Byte.x00]] in
  exists ar,
    newReaderArrayBuffer [] src = Returns (ar, 3, [])
    /\ snd (observe (Reads ar bufs))
       = snd (observe
                (Reads (fst (newReaderArrayPromise
                               [] (JsPromise (Fulfilled src)))) bufs)).
Proof.
  intros src bufs.
  apply (constructors_agree [] src bufs pool_ok_nil).
Defined.

(** * Scenarios *)

(** The scenario of the specification: a promise fulfilled with the ten
    bytes 0..9, read into 4 bytes, then into 10 bytes, then once more. *)
Example scenario_fulfilled :
  let src := [Byte.x00; Byte.x01; Byte.x02; Byte.x03; Byte.x04;
              Byte.x05; Byte.x06; Byte.x07; Byte.x08; Byte.x09] in
  let ar := fst (newReaderArrayPromise [] (JsPromise (Fulfilled src))) in
  exists ar',
    Reads ar [repeat Byte.xff 4; repeat Byte.xff 10; repeat Byte.xff 4]
    = ([EvThen (Fulfilled src)],
       Returns ([(4, None, [Byte.x00; Byte.x01; Byte.x02; Byte.x03]);
                 (6, None, [Byte.x04; Byte.x05; Byte.x06; Byte.x07;
                            Byte.x08; Byte.x09;
                            Byte.xff; Byte.xff; Byte.xff; Byte.xff]);
                 (0, Some EOF, repeat Byte.xff 4)], ar')).
Proof. eexists. reflexivity. Qed.

(** Reuse of the backing storage.  Ten bytes were configured and four were
    read; the instance is released with six bytes in its window.  Taken
    again for a buffer of three bytes, it keeps its storage: the old bytes
    7, 8, 9 are still behind the window, and the reads deliver the three new
    bytes only. *)
Example storage_reused_without_stale_bytes :
  let old := mkReader JsUndefined
                      (SMk [Byte.x04; Byte.x05; Byte.x06;
                            Byte.x07; Byte.x08; Byte.x09] []) true None in
  let src := [Byte.xa0; Byte.xa1; Byte.xa2] in
  exists released ar ar',
    Close 1024 old [] = Returns (None, [released])
    /\ newReaderArrayBuffer [released] src = Returns (ar, 3, [])
    /\ remaining ar = SMk src [Byte.x07; Byte.x08; Byte.x09]
    /\ Reads ar [repeat Byte.x00 8; repeat Byte.x00 8]
       = ([], Returns ([(3, None, src ++ repeat Byte.x00 5);
                        (0, Some EOF, repeat Byte.x00 8)], ar')).
Proof.
  do 3 eexists. split; [reflexivity|]. split; [reflexivity|].
  split; reflexivity.
Qed.

End Wasmws.
